(** * A shallow embedding of the libp2p echo server example
    (examples/echo-server.rs).

    The example builds a transport stack (TCP, then plaintext-or-secio, then
    multiplex with connection reuse, then the "/echo/1.0.0" protocol),
    listens on an address taken from the command line, and for each incoming
    substream runs a length-delimited echo loop.  Errors of one client are
    absorbed by a [.then] so that the [for_each] over the listener goes on. *)

From Stdlib Require Import List String Ascii Bool Arith Lia.
Import ListNotations.

(* ------------------------------------------------------------------ *)
(** ** Common data: bytes, I/O errors, futures *)

(** A [BytesMut] frame payload. *)
Definition bytes := list Byte.byte.

(** [std::io::Error], reduced to the kinds that matter here. *)
Inductive io_error :=
| UnexpectedEof
| ConnectionReset
| BrokenPipe
| InvalidData
| OtherError (msg : string).

(** The [Result] type of Rust. *)
Inductive result (A E : Type) :=
| Ok (a : A)
| Err (e : E).
Arguments Ok {A E} a.
Arguments Err {A E} e.

(** A futures-0.1 future observed at the end of the run: it either resolved
    to a [Result], or it is still [NotReady] (waiting on the remote). *)
Inductive fut (A : Type) :=
| Ready (r : result A io_error)
| NotReady.
Arguments Ready {A} r.
Arguments NotReady {A}.

(** [futures::future::Loop]. *)
Inductive loop_state (S A : Type) :=
| Continue (s : S)
| Break (a : A).
Arguments Continue {S A} s.
Arguments Break {S A} a.

(** Observable events: what the code reads from and writes to the framed
    substream, and the lines it prints with [println!]. *)
Inductive log_line :=
| LogListening (addr : string)
| LogIncoming (client : string)
| LogNegotiated (client : string)
| LogReceived (client : string) (msg : bytes)
| LogEof (client : string)
| LogClientError (e : io_error).

Inductive poll_item :=
| Frame (msg : bytes)      (* [Ok(Some(msg))]: one length-delimited frame *)
| EndOfStream              (* [Ok(None)]: the stream has ended *)
| ReadFault (e : io_error). (* [Err(e)]: a read or decoding error *)

Inductive event :=
| EvRead (p : poll_item)
| EvSent (msg : bytes)
| EvWriteFault (msg : bytes) (e : io_error)
| EvLog (l : log_line).

(* ------------------------------------------------------------------ *)
(** ** [futures::future::loop_fn]

    [loop_fn init f] runs [f] on the state until it yields [Break].  A
    future observed at a finite time has only run finitely many steps: the
    [fuel] bounds them, and a run out of fuel is still [NotReady]. *)

Fixpoint loop_fn {S A : Type} (fuel : nat)
    (f : S -> fut (loop_state S A) * list event) (s : S)
    : fut A * list event :=
  match fuel with
  | O => (NotReady, [])
  | Datatypes.S n =>
      let (r, tr) := f s in
      match r with
      | Ready (Ok (Continue s')) =>
          let (r', tr') := loop_fn n f s' in (r', tr ++ tr')
      | Ready (Ok (Break a)) => (Ready (Ok a), tr)
      | Ready (Err e) => (Ready (Err e), tr)
      | NotReady => (NotReady, tr)
      end
  end.

(* ------------------------------------------------------------------ *)
(** ** The framed substream: [length_delimited::Framed<Substream>]

    As a [Stream], it yields the items the remote sent, in order; as a
    [Sink], [send] writes one frame and flushes it.  [write_faults] gives the
    outcome of successive writes ([None]: the write succeeded); once it is
    exhausted every further write succeeds. *)

Record framed := mkFramed {
  incoming : list poll_item;
  write_faults : list (option io_error)
}.

(** [socket.into_future().map_err(|(err, _)| err)]. *)
Definition into_future (s : framed) : fut (option bytes * framed) :=
  match incoming s with
  | [] => NotReady
  | Frame m :: r => Ready (Ok (Some m, mkFramed r (write_faults s)))
  | EndOfStream :: r => Ready (Ok (None, mkFramed r (write_faults s)))
  | ReadFault e :: _ => Ready (Err e)
  end.

(** [rest.send(msg)]: the future resolves to the sink back, or to the
    write error. *)
Definition send (s : framed) (msg : bytes) : result framed io_error :=
  match write_faults s with
  | [] => Ok s
  | None :: w => Ok (mkFramed (incoming s) w)
  | Some e :: _ => Err e
  end.

(** The closure passed to [loop_fn] (echo-server.rs, lines 110-129). *)
Definition echo_step (client_addr : string) (socket : framed)
    : fut (loop_state framed unit) * list event :=
  match into_future socket with
  | NotReady => (NotReady, [])
  | Ready (Err e) => (Ready (Err e), [EvRead (ReadFault e)])
  | Ready (Ok (Some msg, rest)) =>
      let tr := [EvRead (Frame msg); EvLog (LogReceived client_addr msg)] in
      match send rest msg with
      | Ok m => (Ready (Ok (Continue m)), tr ++ [EvSent msg])
      | Err e => (Ready (Err e), tr ++ [EvWriteFault msg e])
      end
  | Ready (Ok (None, _)) =>
      (Ready (Ok (Break tt)), [EvRead EndOfStream; EvLog (LogEof client_addr)])
  end.

(** The echo session: [loop_fn(socket, ...)], run long enough for every
    item the remote sent to be handled. *)
Definition echo_session (client_addr : string) (socket : framed)
    : fut unit * list event :=
  loop_fn (Datatypes.S (List.length (incoming socket))) (echo_step client_addr) socket.

(** [Sent] frames of a trace, in order. *)
Fixpoint sent_frames (tr : list event) : list bytes :=
  match tr with
  | [] => []
  | EvSent m :: t => m :: sent_frames t
  | _ :: t => sent_frames t
  end.

(** The trace of echoing a list of frames that were all written
    successfully. *)
Definition echo_trace (client_addr : string) (bs : list bytes) : list event :=
  flat_map (fun m => [EvRead (Frame m); EvLog (LogReceived client_addr m); EvSent m]) bs.

(* ------------------------------------------------------------------ *)
(** ** One client: the [for_each] closure (echo-server.rs, lines 98-140)

    [upgrade] is the [socket] future of the listener item: it resolves once
    the upgrades of the transport stack have completed on the substream. *)

Definition handle_client (upgrade : fut framed) (client_addr : string)
    : fut unit * list event :=
  let tr0 := [EvLog (LogIncoming client_addr)] in
  (* socket.and_then(move |socket| { println!(..); loop_fn(socket, ..) }) *)
  let (res, tr1) :=
    match upgrade with
    | NotReady => (NotReady, [])
    | Ready (Err e) => (Ready (Err e), [])
    | Ready (Ok socket) =>
        let (r, t) := echo_session client_addr socket in
        (r, EvLog (LogNegotiated client_addr) :: t)
    end in
  (* .then(move |res| { if let Err(err) = res { println!(..) }; Ok(()) }) *)
  match res with
  | NotReady => (NotReady, tr0 ++ tr1)
  | Ready (Err e) => (Ready (Ok tt), tr0 ++ tr1 ++ [EvLog (LogClientError e)])
  | Ready (Ok _) => (Ready (Ok tt), tr0 ++ tr1)
  end.

(** ** The listener stream and [Stream::for_each]

    The items of a futures-0.1 stream, as far as the remote side has
    produced them: an item, the stream's own error, or its end.  A list
    that runs out is a stream that has not produced its next item yet. *)
Inductive stream_item (A : Type) :=
| Item (x : A)
| StreamErr (e : io_error)
| StreamEnd.
Arguments Item {A} x.
Arguments StreamErr {A} e.
Arguments StreamEnd {A}.

(** [stream.for_each(f)]: each item's future is run to completion before
    the next item is polled; an [Err] of the closure's future, or of the
    stream, ends the loop with that error. *)
Fixpoint for_each {A : Type} (f : A -> fut unit * list event)
    (items : list (stream_item A)) : fut unit * list event :=
  match items with
  | [] => (NotReady, [])
  | Item x :: rest =>
      let (r, tr) := f x in
      match r with
      | Ready (Ok _) => let (r', tr') := for_each f rest in (r', tr ++ tr')
      | Ready (Err e) => (Ready (Err e), tr)
      | NotReady => (NotReady, tr)
      end
  | StreamErr e :: _ => (Ready (Err e), [])
  | StreamEnd :: _ => (Ready (Ok tt), [])
  end.

(** Modelled from the spec: the listener stream of the upgraded transport
    (the swarm's upgrade and connection-reuse listeners, not part of the
    example).  Each item pairs the upgrade future of one incoming
    connection or substream with the client's address; a failure of that
    connection's upgrade (security or protocol negotiation, handshake, I/O)
    is carried by the item's future.  Only a failure of the listening
    socket itself is an error of the stream. *)
Definition listener := list (stream_item (fut framed * string)).

(** [let future = listener.for_each(|(socket, client_addr)| ...)]. *)
Definition serve (l : listener) : fut unit * list event :=
  for_each (fun '(up, a) => handle_client up a) l.

(* ------------------------------------------------------------------ *)
(** ** The echo protocol: [SimpleProtocol::new("/echo/1.0.0", ..)]

    A substream opened by the remote: the protocol identifiers it proposes
    during negotiation, in its order, then what it sends once a protocol is
    agreed, as cut into frames by the length-delimited codec, and the
    outcome of the writes made on it. *)
Record substream := mkSubstream {
  sub_proposals : list string;
  sub_rx : list poll_item;
  sub_write_faults : list (option io_error)
}.

(** [length_delimited::Framed::new(socket)]. *)
Definition framed_new (socket : substream) : framed :=
  mkFramed (sub_rx socket) (sub_write_faults socket).

(** [SimpleProtocol]: one protocol name and the closure run on the
    substream once that name has been negotiated. *)
Record simple_protocol := mkSimpleProtocol {
  sp_name : string;
  sp_upgrade : substream -> result framed io_error
}.

(** echo-server.rs, lines 76-82. *)
Definition echo_protocol : simple_protocol :=
  mkSimpleProtocol "/echo/1.0.0" (fun socket => Ok (framed_new socket)).

(** The names a [SimpleProtocol] offers to the negotiation. *)
Definition protocol_names (p : simple_protocol) : list string := [sp_name p].

(** Modelled from the spec: protocol negotiation on a substream
    (multistream-select, listener side, not part of the example).  The
    remote proposes identifiers one at a time; the first one equal, as a
    string, to a locally supported name is accepted; if the remote runs out
    of proposals the negotiation fails. *)
Fixpoint listener_select (local proposals : list string) : option string :=
  match proposals with
  | [] => None
  | p :: ps => if existsb (String.eqb p) local then Some p else listener_select local ps
  end.

Definition negotiation_failed : io_error := OtherError "no protocol in common".

(** Negotiation stage of the protocol upgrade. *)
Definition negotiate_protocol (p : simple_protocol) (socket : substream) : fut substream :=
  match listener_select (protocol_names p) (sub_proposals socket) with
  | Some _ => Ready (Ok socket)
  | None => Ready (Err negotiation_failed)
  end.

(** Hand-off of the negotiated substream to the protocol's closure. *)
Definition apply_protocol (p : simple_protocol) (socket : substream) : fut framed :=
  Ready (sp_upgrade p socket).

(** The whole [with_upgrade(SimpleProtocol ..)] step on one substream. *)
Definition protocol_upgrade (p : simple_protocol) (socket : substream) : fut framed :=
  match negotiate_protocol p socket with
  | Ready (Ok s) => apply_protocol p s
  | Ready (Err e) => Ready (Err e)
  | NotReady => NotReady
  end.

(* ------------------------------------------------------------------ *)
(** ** The upgrade stages of a connection

    The stack of [main] (lines 47-82): TCP, [with_upgrade] of the security
    choice, [with_upgrade(MultiplexConfig)], [into_connection_reuse()],
    [with_upgrade] of the echo protocol.  A stage's name is recorded when
    the stage is entered. *)

Inductive stage := Security | Multiplexing | ProtocolNegotiation | Application.

Definition stage_order : list stage :=
  [Security; Multiplexing; ProtocolNegotiation; Application].

(** [with_upgrade]: run the next stage on the output of the previous one;
    a failed or pending previous stage does not start it. *)
Definition with_stage {A B : Type} (st : stage) (f : A -> fut B)
    (x : list stage * fut A) : list stage * fut B :=
  let (tr, r) := x in
  match r with
  | Ready (Ok a) => (tr ++ [st], f a)
  | Ready (Err e) => (tr, Ready (Err e))
  | NotReady => (tr, NotReady)
  end.

Section Pipeline.
Context {Raw Sec Muxer : Type}.
(** [plain_text.or_upgrade(secio)] on the raw TCP socket. *)
Variable security : Raw -> fut Sec.
(** [MultiplexConfig] on the secured socket. *)
Variable multiplex : Sec -> fut Muxer.
(** The substreams the remote opens on the multiplexed connection. *)
Variable inbound : Muxer -> list substream.

Definition connection_upgrade (raw : Raw) : list stage * fut Muxer :=
  with_stage Multiplexing multiplex (with_stage Security security ([], Ready (Ok raw))).

Definition substream_upgrade (conn_trace : list stage) (socket : substream)
    : list stage * fut framed :=
  with_stage Application (apply_protocol echo_protocol)
    (with_stage ProtocolNegotiation (negotiate_protocol echo_protocol)
       (conn_trace, Ready (Ok socket))).

(** Modelled from the spec: the items the connection-reuse listener
    produces for one raw connection (swarm code, not part of the
    example): once security and multiplexing have succeeded, one upgrade
    per substream the remote opens; if either fails, a single failed
    item; while they are pending, nothing yet. *)
Definition connection_items (raw : Raw) : list (list stage * fut framed) :=
  let (tr, m) := connection_upgrade raw in
  match m with
  | Ready (Ok mux) => map (substream_upgrade tr) (inbound mux)
  | Ready (Err e) => [(tr, Ready (Err e))]
  | NotReady => []
  end.
End Pipeline.

(* ------------------------------------------------------------------ *)
(** ** The security choice: [plain_text.or_upgrade(secio)] (lines 51-63) *)

Inductive security_mode := PlainText | Secio.

Definition security_name (m : security_mode) : string :=
  match m with
  | PlainText => "/plaintext/1.0.0"
  | Secio => "/secio/1.0.0"
  end.

(** The protocol names of [plain_text.or_upgrade(secio)]: those of the
    first upgrade, then those of the second. *)
Definition or_upgrade_names : list string := map security_name [PlainText; Secio].

(** The mode an agreed protocol name stands for. *)
Definition mode_of_name (n : string) : option security_mode :=
  find (fun m => String.eqb (security_name m) n) [PlainText; Secio].

(** Modelled from the spec: security-mode negotiation on an incoming
    connection (the swarm's [OrUpgrade] over multistream-select, not part
    of the example).  It is negotiated like any other upgrade, by
    [listener_select] over the names of the [or_upgrade]: the remote
    proposes modes in its own order and the first one supported here is
    selected. *)
Definition negotiate_security (proposals : list string) : option security_mode :=
  match listener_select or_upgrade_names proposals with
  | Some n => mode_of_name n
  | None => None
  end.

(* ------------------------------------------------------------------ *)
(** ** Listening: [transport.listen_on(..)] in [main] (lines 89-94) *)

Inductive addr_component :=
| Ip4 (a b c d : nat)
| Ip6 (segments : list nat)
| Tcp (port : nat)
| Udp (port : nat)
| Dns4 (host : string).

(** A parsed [Multiaddr]. *)
Definition multiaddr := list addr_component.

Inductive ip_addr := V4 (a b c d : nat) | V6 (segments : list nat).

(** The sockets bound by the process, and the port the system gives to
    the next bind on port 0. *)
Record net := mkNet { bound : list (ip_addr * nat); ephemeral : nat }.

Definition ip_addr_eq_dec (x y : ip_addr) : {x = y} + {x <> y}.
Proof. decide equality; try apply Nat.eq_dec. apply list_eq_dec, Nat.eq_dec. Defined.

Definition sockaddr_eqb (x y : ip_addr * nat) : bool :=
  if ip_addr_eq_dec (fst x) (fst y) then Nat.eqb (snd x) (snd y) else false.

(** [SocketAddr::to_multiaddr]. *)
Definition socketaddr_to_multiaddr (sa : ip_addr * nat) : multiaddr :=
  match sa with
  | (V4 x y z t, p) => [Ip4 x y z t; Tcp p]
  | (V6 s, p) => [Ip6 s; Tcp p]
  end.

(** The transport value built in [main]; the error of [listen_on] gives it
    back together with the address. *)
Record transport := mkTransport { layers : list string }.

Definition echo_transport : transport :=
  mkTransport ["tcp"; "plaintext-or-secio"; "multiplex"; "connection-reuse"; "/echo/1.0.0"]%string.

(** Modelled from the spec: the TCP transport's address check (the tcp
    transport crate, not part of the example): it listens on
    [/ip4/../tcp/..] and [/ip6/../tcp/..] only. *)
Definition multiaddr_to_socketaddr (a : multiaddr) : option (ip_addr * nat) :=
  match a with
  | [Ip4 x y z t; Tcp p] => Some (V4 x y z t, p)
  | [Ip6 s; Tcp p] => Some (V6 s, p)
  | _ => None
  end.

(** The outcome of the bind made by [listen_on]. *)
Inductive bind_status :=
| Bound (sa : ip_addr * nat)
| BindFailed (e : io_error).

Definition addr_in_use : io_error := OtherError "address already in use".

(** Modelled from the spec and the comment of lines 91-93: [listen_on] of
    the TCP transport.  For an unsupported address it returns the
    transport and the original multiaddr as its error and binds nothing.
    For a supported one it binds a socket (port 0 gets the port the system
    picks) and returns the listener with the socket's local address; if the
    address is already bound the bind fails, [listen_on] still returns the
    original multiaddr, and the bind error is the listener stream's first
    item, so it propagates unchanged to whoever runs the stream. *)
Definition listen_on (t : transport) (st : net) (a : multiaddr)
    : result (bind_status * multiaddr) (transport * multiaddr) * net :=
  match multiaddr_to_socketaddr a with
  | None => (Err (t, a), st)
  | Some (ip, p) =>
      let sa := (ip, if Nat.eqb p 0 then ephemeral st else p) in
      if existsb (sockaddr_eqb sa) (bound st)
      then (Ok (BindFailed addr_in_use, a), st)
      else (Ok (Bound sa, socketaddr_to_multiaddr sa),
            mkNet (sa :: bound st) (Datatypes.S (ephemeral st)))
  end.

(** How [main]'s startup ends: listening, or a panic of [expect] with its
    message and, for [Result::expect], the error value it prints. *)
Inductive startup :=
| Listening (addr : multiaddr) (st : net)
| Panic (msg : string) (payload : option multiaddr) (st : net).

(** Lines 89-95; [parsed] is the result of [Multiaddr::new(&listen_addr)]. *)
Definition main_listen (st : net) (parsed : option multiaddr) : startup :=
  match parsed with
  | None => Panic "invalid multiaddr" None st
  | Some a =>
      match listen_on echo_transport st a with
      | (Ok (_, addr), st') => Listening addr st'
      | (Err (_, addr), st') => Panic "unsupported multiaddr" (Some addr) st'
      end
  end.

(* ------------------------------------------------------------------ *)
(** ** The listening address (line 40) *)

Definition default_listen_addr : string := "/ip4/0.0.0.0/tcp/10333".

(** [env::args().nth(1).unwrap_or("/ip4/0.0.0.0/tcp/10333".to_owned())]. *)
Definition listen_addr (args : list string) : string :=
  match nth_error args 1 with
  | Some a => a
  | None => default_listen_addr
  end.

(* ------------------------------------------------------------------ *)
(** ** The whole of [main] (lines 38-147)

    [core_ok] is whether [Core::new()] succeeds, [key_ok] whether
    [SecioKeyPair::rsa_from_pkcs8(..)] accepts the key files (tokio and
    secio code); [parse] is [Multiaddr::new] and [show] the [Debug]
    formatting of a multiaddr (multiaddr crate); [l] is what the bound
    listening socket yields. *)

(** Where [main] panics: an [unwrap] or [expect] of lines 43, 58, 90, 94
    or 146. *)
Inductive panic_site := AtCoreNew | AtKeyPair | AtParse | AtListen | AtRun.

(** How a run of [main] stands: it panicked, it returned (the future
    passed to [core.run] resolved to [Ok]), or it is still running. *)
Inductive main_outcome :=
| MainPanic (site : panic_site) (st : net)
| MainReturned (st : net)
| MainRunning (st : net).

Definition main (core_ok key_ok : bool) (parse : string -> option multiaddr)
    (show : multiaddr -> string) (args : list string) (st : net) (l : listener)
    : main_outcome * list event :=
  let addr_text := listen_addr args in
  (* let mut core = Core::new().unwrap(); *)
  if negb core_ok then (MainPanic AtCoreNew st, []) else
  (* SecioKeyPair::rsa_from_pkcs8(private_key, public_key).unwrap() *)
  if negb key_ok then (MainPanic AtKeyPair st, []) else
  (* Multiaddr::new(&listen_addr).expect("invalid multiaddr") *)
  match parse addr_text with
  | None => (MainPanic AtParse st, [])
  | Some a =>
      match listen_on echo_transport st a with
      (* .map_err(|(_, addr)| addr).expect("unsupported multiaddr") *)
      | (Err _, st') => (MainPanic AtListen st', [])
      | (Ok (b, address), st') =>
          (* println!("Now listening on {:?}", address); *)
          let tr0 := [EvLog (LogListening (show address))] in
          let stream := match b with
                        | Bound _ => l
                        | BindFailed e => [StreamErr e]
                        end in
          (* core.run(future).unwrap(); *)
          let (r, tr) := serve stream in
          match r with
          | Ready (Ok _) => (MainReturned st', tr0 ++ tr)
          | Ready (Err _) => (MainPanic AtRun st', tr0 ++ tr)
          | NotReady => (MainRunning st', tr0 ++ tr)
          end
      end
  end.

(* ------------------------------------------------------------------ *)
(** ** Views of a trace *)

(** The items read from the framed substream, in order. *)
Fixpoint reads (tr : list event) : list poll_item :=
  match tr with
  | [] => []
  | EvRead p :: t => p :: reads t
  | _ :: t => reads t
  end.

(** The payloads of the frames the remote sent before its first item
    that is not a frame. *)
Fixpoint frame_payloads (items : list poll_item) : list bytes :=
  match items with
  | Frame m :: r => m :: frame_payloads r
  | _ => []
  end.

(** A substream on which the remote proposes the echo protocol and then
    closes. *)
Definition sample_substream : substream :=
  mkSubstream ["/echo/1.0.0"%string] [EndOfStream] [].

(* ================================================================== *)
(** ** Lemmas on the echo loop *)

Lemma send_incoming s m s' : send s m = Ok s' -> incoming s' = incoming s.
Proof.
  unfold send; destruct s as [i w]; simpl.
  destruct w as [|[e|] w]; intros H; inversion H; reflexivity.
Qed.

Lemma echo_step_continue c s s' tr :
  echo_step c s = (Ready (Ok (Continue s')), tr) ->
  List.length (incoming s') < List.length (incoming s).
Proof.
  unfold echo_step, into_future; destruct s as [i w]; simpl.
  destruct i as [|[m| |e] i]; simpl; try discriminate.
  destruct (send (mkFramed i w) m) eqn:Hs; try discriminate.
  intros H; inversion H; subst.
  apply send_incoming in Hs; simpl in Hs; rewrite Hs; lia.
Qed.

(** Any fuel beyond the number of pending items gives the same run. *)
Lemma loop_fn_echo_fuel c : forall n m s,
  List.length (incoming s) < n -> List.length (incoming s) < m ->
  loop_fn n (echo_step c) s = loop_fn m (echo_step c) s.
Proof.
  induction n as [|n IH]; intros m s Hn Hm; [lia|].
  destruct m as [|m]; [lia|]. simpl.
  destruct (echo_step c s) as [r tr] eqn:Hstep.
  destruct r as [[[s'|a]|e]|]; try reflexivity.
  apply echo_step_continue in Hstep.
  rewrite (IH m s'); [reflexivity|lia|lia].
Qed.

Lemma echo_session_unfold c s :
  echo_session c s =
  let (r, tr) := echo_step c s in
  match r with
  | Ready (Ok (Continue s')) =>
      let (r', tr') := echo_session c s' in (r', tr ++ tr')
  | Ready (Ok (Break a)) => (Ready (Ok a), tr)
  | Ready (Err e) => (Ready (Err e), tr)
  | NotReady => (NotReady, tr)
  end.
Proof.
  unfold echo_session at 1; simpl.
  destruct (echo_step c s) as [r tr] eqn:Hstep.
  destruct r as [[[s'|a]|e]|]; try reflexivity.
  apply echo_step_continue in Hstep.
  unfold echo_session. rewrite (loop_fn_echo_fuel c _ (Datatypes.S (List.length (incoming s')))); [reflexivity|lia|lia].
Qed.

Lemma echo_session_frame c m r w :
  echo_session c (mkFramed (Frame m :: r) w) =
  match send (mkFramed r w) m with
  | Ok s' =>
      let (r', tr') := echo_session c s' in
      (r', [EvRead (Frame m); EvLog (LogReceived c m); EvSent m] ++ tr')
  | Err e => (Ready (Err e), [EvRead (Frame m); EvLog (LogReceived c m); EvWriteFault m e])
  end.
Proof.
  rewrite echo_session_unfold. unfold echo_step, into_future; simpl.
  destruct (send (mkFramed r w) m); reflexivity.
Qed.

Lemma echo_session_eos c r w :
  echo_session c (mkFramed (EndOfStream :: r) w) =
  (Ready (Ok tt), [EvRead EndOfStream; EvLog (LogEof c)]).
Proof. rewrite echo_session_unfold; reflexivity. Qed.

Lemma echo_session_fault c e r w :
  echo_session c (mkFramed (ReadFault e :: r) w) =
  (Ready (Err e), [EvRead (ReadFault e)]).
Proof. rewrite echo_session_unfold; reflexivity. Qed.

Lemma echo_session_nil c w :
  echo_session c (mkFramed [] w) = (NotReady, []).
Proof. reflexivity. Qed.

Lemma echo_session_frames c : forall bs rest w,
  Forall (fun o => o = None) (firstn (List.length bs) w) ->
  echo_session c (mkFramed (map Frame bs ++ rest) w) =
  (fst (echo_session c (mkFramed rest (skipn (List.length bs) w))),
   echo_trace c bs ++ snd (echo_session c (mkFramed rest (skipn (List.length bs) w)))).
Proof.
  induction bs as [|m bs IH]; intros rest w Hw; simpl.
  - destruct (echo_session c (mkFramed rest w)); reflexivity.
  - rewrite echo_session_frame.
    destruct w as [|o w].
    + simpl. rewrite (IH rest []) by (rewrite firstn_nil; constructor).
      rewrite skipn_nil. reflexivity.
    + simpl in Hw. inversion Hw as [|? ? Ho Hw']; subst. simpl.
      rewrite (IH rest w Hw'). reflexivity.
Qed.

Lemma sent_frames_app t1 t2 : sent_frames (t1 ++ t2) = sent_frames t1 ++ sent_frames t2.
Proof.
  induction t1 as [|[] t1 IH]; simpl; try rewrite IH; reflexivity.
Qed.

Lemma sent_frames_echo_trace c bs : sent_frames (echo_trace c bs) = bs.
Proof.
  induction bs as [|m bs IH]; simpl; [reflexivity|]. rewrite IH; reflexivity.
Qed.

Lemma echo_session_clean_end c : forall i w,
  fst (echo_session c (mkFramed i w)) = Ready (Ok tt) ->
  exists pre post, i = map Frame pre ++ EndOfStream :: post.
Proof.
  induction i as [|[m| |e] i IH]; intros w H.
  - discriminate H.
  - rewrite echo_session_frame in H.
    destruct (send (mkFramed i w) m) as [s'|e] eqn:Hs; [|discriminate H].
    destruct s' as [i' w']. apply send_incoming in Hs; simpl in Hs; subst i'.
    destruct (echo_session c (mkFramed i w')) as [r tr] eqn:He.
    simpl in H. subst r.
    destruct (IH w') as (pre & post & ->); [rewrite He; reflexivity|].
    exists (m :: pre), post; reflexivity.
  - exists [], i; reflexivity.
  - rewrite echo_session_fault in H; discriminate H.
Qed.

Lemma handle_client_resolves_ok up a :
  fst (handle_client up a) = Ready (Ok tt) \/ fst (handle_client up a) = NotReady.
Proof.
  unfold handle_client.
  destruct up as [[s|e]|].
  - destruct (echo_session a s) as [[[]|]t]; simpl; auto.
  - simpl; auto.
  - simpl; auto.
Qed.

Lemma serve_err l e :
  fst (serve l) = Ready (Err e) ->
  exists pre post, l = map Item pre ++ StreamErr e :: post.
Proof.
  unfold serve. induction l as [|[[up a]|e'|] l IH]; simpl; intros H.
  - discriminate H.
  - destruct (handle_client up a) as [r tr] eqn:Hc.
    pose proof (handle_client_resolves_ok up a) as Hok. rewrite Hc in Hok; simpl in Hok.
    destruct Hok as [->| ->]; [|discriminate H].
    destruct (for_each _ l) as [r' tr'] eqn:Hl. simpl in H; subst r'.
    destruct IH as (pre & post & ->); [reflexivity|].
    exists ((up, a) :: pre), post; reflexivity.
  - inversion H; subst. exists [], l; reflexivity.
  - discriminate H.
Qed.

Lemma listener_select_single n : forall ps,
  listener_select [n] ps = if existsb (String.eqb n) ps then Some n else None.
Proof.
  induction ps as [|p ps IH]; simpl; [reflexivity|].
  rewrite orb_false_r, (String.eqb_sym n p).
  destruct (String.eqb p n) eqn:E; [apply String.eqb_eq in E; subst; reflexivity|].
  exact IH.
Qed.

(* ================================================================== *)
(** ** Concrete runs *)

Example run_two_frames :
  echo_session "peer" (mkFramed [Frame [Byte.x68; Byte.x69]; Frame []; EndOfStream] []) =
  (Ready (Ok tt),
   [EvRead (Frame [Byte.x68; Byte.x69]); EvLog (LogReceived "peer" [Byte.x68; Byte.x69]);
    EvSent [Byte.x68; Byte.x69];
    EvRead (Frame []); EvLog (LogReceived "peer" []); EvSent [];
    EvRead EndOfStream; EvLog (LogEof "peer")]).
Proof. reflexivity. Qed.

Example run_client_write_fault :
  fst (handle_client (Ready (Ok (mkFramed [Frame []; Frame []] [None; Some BrokenPipe]))) "peer")
  = Ready (Ok tt).
Proof. reflexivity. Qed.

Example listen_addr_default : listen_addr ["echo-server"%string] = "/ip4/0.0.0.0/tcp/10333"%string.
Proof. reflexivity. Qed.

(* ================================================================== *)
(** ** The claims *)

(** C1 (echo fidelity): when the next item of the framed substream is a
    frame [B] (any bytes, the empty sequence included), the loop's next
    action is to write exactly [B] back as one frame on the same substream;
    only if that write succeeds does it go on to read the following item,
    from the same substream. *)
Theorem echo_fidelity c B r w :
  echo_session c (mkFramed (Frame B :: r) w) =
  match send (mkFramed r w) B with
  | Ok s' =>
      (fst (echo_session c s'),
       [EvRead (Frame B); EvLog (LogReceived c B); EvSent B] ++ snd (echo_session c s'))
  | Err e =>
      (Ready (Err e), [EvRead (Frame B); EvLog (LogReceived c B); EvWriteFault B e])
  end
  /\ (forall s', send (mkFramed r w) B = Ok s' -> incoming s' = r).
Proof.
  split.
  - rewrite echo_session_frame.
    destruct (send (mkFramed r w) B) as [s'|e]; [|reflexivity].
    destruct (echo_session c s'); reflexivity.
  - intros s' Hs. apply send_incoming in Hs. exact Hs.
Qed.

Lemma echo_fidelity_witness :
  (send (mkFramed [EndOfStream] []) [Byte.x01] = Ok (mkFramed [EndOfStream] [])
   -> incoming (mkFramed [EndOfStream] []) = [EndOfStream]) /\
  incoming (mkFramed [EndOfStream] []) = [EndOfStream].
Proof.
  split.
  - intros _. reflexivity.
  - apply (proj2 (echo_fidelity "peer" [Byte.x01] [EndOfStream] [])). reflexivity.
Defined.

(** C4 (zero-length frames): a frame of length 0 is echoed as an empty
    frame and the loop then goes on (or fails on a write fault); it never
    ends the loop cleanly.  The loop ends cleanly ([Loop::Break]) only after
    reading the end-of-stream item, every earlier item being a frame. *)
Theorem zero_length_frame_not_eos c :
  (forall r w,
     echo_session c (mkFramed (Frame [] :: r) w) =
     match send (mkFramed r w) [] with
     | Ok s' =>
         (fst (echo_session c s'),
          [EvRead (Frame []); EvLog (LogReceived c []); EvSent []] ++ snd (echo_session c s'))
     | Err e => (Ready (Err e), [EvRead (Frame []); EvLog (LogReceived c []); EvWriteFault [] e])
     end)
  /\ (forall s, fst (echo_session c s) = Ready (Ok tt) ->
       exists pre post, incoming s = map Frame pre ++ EndOfStream :: post).
Proof.
  split.
  - intros r w. rewrite echo_session_frame.
    destruct (send (mkFramed r w) []) as [s'|e]; [|reflexivity].
    destruct (echo_session c s'); reflexivity.
  - intros [i w] H. exact (echo_session_clean_end c i w H).
Qed.

Lemma zero_length_frame_not_eos_witness :
  fst (echo_session "peer" (mkFramed [Frame []; EndOfStream] [])) = Ready (Ok tt) /\
  exists pre post, incoming (mkFramed [Frame []; EndOfStream] []) = map Frame pre ++ EndOfStream :: post.
Proof.
  split; [reflexivity|].
  apply (proj2 (zero_length_frame_not_eos "peer")). reflexivity.
Defined.

(** C5 (graceful termination): when the next item is the end of stream,
    the loop breaks, the session resolves to [Ok(())] with nothing written,
    and the client's future completes without an error being reported. *)
Theorem graceful_termination c r w :
  echo_session c (mkFramed (EndOfStream :: r) w) =
    (Ready (Ok tt), [EvRead EndOfStream; EvLog (LogEof c)])
  /\ handle_client (Ready (Ok (mkFramed (EndOfStream :: r) w))) c =
    (Ready (Ok tt),
     [EvLog (LogIncoming c); EvLog (LogNegotiated c); EvRead EndOfStream; EvLog (LogEof c)]).
Proof.
  split; [apply echo_session_eos|].
  unfold handle_client. rewrite echo_session_eos. reflexivity.
Qed.

(** C6 (frame boundaries and order): frames [B1 .. Bn] received in order,
    whose writes succeed, are written back as exactly the frames
    [B1 .. Bn] in the same order, each read followed by its own write, before
    anything that follows them is read. *)
Theorem frames_echoed_in_order c bs rest w :
  Forall (fun o => o = None) (firstn (List.length bs) w) ->
  echo_session c (mkFramed (map Frame bs ++ rest) w) =
    (fst (echo_session c (mkFramed rest (skipn (List.length bs) w))),
     echo_trace c bs ++ snd (echo_session c (mkFramed rest (skipn (List.length bs) w))))
  /\ sent_frames (echo_trace c bs) = bs.
Proof.
  intros Hw. split; [apply echo_session_frames, Hw|apply sent_frames_echo_trace].
Qed.

Lemma frames_echoed_in_order_witness :
  Forall (fun o => o = None) (firstn 2 [@None io_error; None]) /\
  echo_session "peer" (mkFramed (map Frame [[Byte.x61]; []] ++ [EndOfStream]) [@None io_error; None]) =
    (fst (echo_session "peer" (mkFramed [EndOfStream] (skipn 2 [@None io_error; None]))),
     echo_trace "peer" [[Byte.x61]; []] ++
       snd (echo_session "peer" (mkFramed [EndOfStream] (skipn 2 [@None io_error; None]))))
  /\ sent_frames (echo_trace "peer" [[Byte.x61]; []]) = [[Byte.x61]; []].
Proof.
  split; [repeat constructor|].
  apply (frames_echoed_in_order "peer" [[Byte.x61]; []] [EndOfStream] [@None io_error; None]).
  simpl. repeat constructor.
Defined.

(** C2 (error isolation): the future run for one client resolves only to
    [Ok(())] (or is still pending), whatever error it met.  A client whose
    upgrade failed, or whose echo session ended with a read or write error,
    is reported ([LogClientError]) and the loop goes on with the next item
    of the listener.  The loop over the listener ends with an error only
    when the listener stream itself yields that error, never because of a
    client. *)
Theorem client_errors_absorbed :
  (forall up a e, fst (handle_client up a) <> Ready (Err e))
  /\ (forall e a rest,
        serve (Item (Ready (Err e), a) :: rest) =
        (fst (serve rest),
         [EvLog (LogIncoming a); EvLog (LogClientError e)] ++ snd (serve rest)))
  /\ (forall socket a e rest,
        fst (echo_session a socket) = Ready (Err e) ->
        serve (Item (Ready (Ok socket), a) :: rest) =
        (fst (serve rest),
         [EvLog (LogIncoming a); EvLog (LogNegotiated a)] ++ snd (echo_session a socket)
           ++ [EvLog (LogClientError e)] ++ snd (serve rest)))
  /\ (forall l e, fst (serve l) = Ready (Err e) ->
        exists pre post, l = map Item pre ++ StreamErr e :: post).
Proof.
  split; [|split; [|split]].
  - intros up a e H. destruct (handle_client_resolves_ok up a) as [H'|H'];
      rewrite H in H'; discriminate H'.
  - intros e a rest. unfold serve at 1. simpl.
    fold (serve rest). destruct (serve rest); reflexivity.
  - intros socket a e rest H.
    assert (Hs : serve (Item (Ready (Ok socket), a) :: rest) =
      let (r, tr) := handle_client (Ready (Ok socket)) a in
      match r with
      | Ready (Ok _) => let (r', tr') := serve rest in (r', tr ++ tr')
      | Ready (Err e) => (Ready (Err e), tr)
      | NotReady => (NotReady, tr)
      end) by reflexivity.
    assert (Hc : handle_client (Ready (Ok socket)) a =
      (Ready (Ok tt), [EvLog (LogIncoming a); EvLog (LogNegotiated a)]
                        ++ snd (echo_session a socket) ++ [EvLog (LogClientError e)])).
    { unfold handle_client. destruct (echo_session a socket) as [r t].
      simpl in H |- *. subst r. reflexivity. }
    rewrite Hs, Hc. destruct (serve rest).
    repeat rewrite <- app_assoc. reflexivity.
  - exact serve_err.
Qed.

Lemma client_errors_absorbed_witness :
  (fst (echo_session "a" (mkFramed [Frame []; ReadFault ConnectionReset] [])) = Ready (Err ConnectionReset) /\
   serve (Item (Ready (Ok (mkFramed [Frame []; ReadFault ConnectionReset] [])), "a"%string)
          :: [StreamEnd])
   = (fst (serve [StreamEnd]),
      [EvLog (LogIncoming "a"); EvLog (LogNegotiated "a")]
        ++ snd (echo_session "a" (mkFramed [Frame []; ReadFault ConnectionReset] []))
        ++ [EvLog (LogClientError ConnectionReset)] ++ snd (serve [StreamEnd])))
  /\
  (fst (serve [Item (Ready (Err ConnectionReset), "a"%string); StreamErr InvalidData])
     = Ready (Err InvalidData) /\
   exists pre post,
     ([Item (Ready (Err ConnectionReset), "a"%string); StreamErr InvalidData] : listener)
     = map Item pre ++ StreamErr InvalidData :: post).
Proof.
  split; split.
  - reflexivity.
  - apply (proj1 (proj2 (proj2 client_errors_absorbed))). reflexivity.
  - reflexivity.
  - apply (proj2 (proj2 (proj2 client_errors_absorbed))). reflexivity.
Defined.

(** C3, as the spec states it: whenever the remote supports secio, secio
    is selected.  It fails: the remote's own order decides, and a remote
    that proposes plaintext first, as a peer built with this same
    [plain_text.or_upgrade(secio)] stack does, gets plaintext although it
    supports secio. *)
Lemma secio_not_preferred :
  ~ (forall proposals, In "/secio/1.0.0"%string proposals ->
       negotiate_security proposals = Some Secio).
Proof.
  intros H.
  specialize (H or_upgrade_names (or_intror (or_introl eq_refl))).
  discriminate H.
Qed.

(** C3 (amended): the mode selected is the first mode the remote proposes,
    in the remote's order, that this stack supports (plaintext or secio);
    if the remote proposes neither, negotiation fails.  There is no local
    preference for secio. *)
Theorem security_selection_order proposals :
  negotiate_security proposals =
  match find (fun p => String.eqb p "/plaintext/1.0.0" || String.eqb p "/secio/1.0.0")
             proposals with
  | Some p => if String.eqb p "/plaintext/1.0.0" then Some PlainText else Some Secio
  | None => None
  end.
Proof.
  unfold negotiate_security.
  induction proposals as [|p ps IH]; [reflexivity|].
  simpl. rewrite orb_false_r.
  destruct (String.eqb p "/plaintext/1.0.0") eqn:Ep.
  - apply String.eqb_eq in Ep. subst p. reflexivity.
  - destruct (String.eqb p "/secio/1.0.0") eqn:Es.
    + apply String.eqb_eq in Es. subst p. reflexivity.
    + exact IH.
Qed.

(** C7 (upgrade-stage order): for every raw connection, each upgrade item
    it gives rise to has entered the stages in the order security,
    multiplexing, protocol negotiation, application, a prefix of it, and
    succeeds only when all four ran; a failure of security or multiplexing
    yields one failed item for that connection and nothing more, and once
    both succeed each remote substream gets its own upgrade, computed from
    that substream alone. *)
Theorem upgrade_stage_order {Raw Sec Muxer : Type}
    (security : Raw -> fut Sec) (multiplex : Sec -> fut Muxer)
    (inbound : Muxer -> list substream) (raw : Raw) :
  (forall tr r, In (tr, r) (connection_items security multiplex inbound raw) ->
     (exists k, 1 <= k /\ tr = firstn k stage_order)
     /\ (forall x, r = Ready (Ok x) -> tr = stage_order))
  /\ connection_items security multiplex inbound raw =
     match connection_upgrade security multiplex raw with
     | (tr, Ready (Ok mux)) => map (substream_upgrade tr) (inbound mux)
     | (tr, Ready (Err e)) => [(tr, Ready (Err e))]
     | (_, NotReady) => []
     end.
Proof.
  split; [|reflexivity].
  intros tr r Hin.
  unfold connection_items, connection_upgrade, with_stage in Hin. simpl in Hin.
  destruct (security raw) as [[sec|e]|].
  - destruct (multiplex sec) as [[mux|e]|].
    + apply in_map_iff in Hin. destruct Hin as (s & Hs & _).
      unfold substream_upgrade, with_stage, negotiate_protocol in Hs.
      destruct (listener_select (protocol_names echo_protocol) (sub_proposals s));
        simpl in Hs; inversion Hs; subst.
      * split; [exists 4; split; [lia|reflexivity]|reflexivity].
      * split; [exists 3; split; [lia|reflexivity]|intros x Hx; discriminate Hx].
    + destruct Hin as [Hin|[]]. inversion Hin; subst.
      split; [exists 2; split; [lia|reflexivity]|intros x Hx; discriminate Hx].
    + destruct Hin.
  - destruct Hin as [Hin|[]]. inversion Hin; subst.
    split; [exists 1; split; [lia|reflexivity]|intros x Hx; discriminate Hx].
  - destruct Hin.
Qed.

Lemma upgrade_stage_order_witness :
  In (stage_order, Ready (Ok (framed_new sample_substream)))
     (connection_items (fun u : unit => Ready (Ok u)) (fun u : unit => Ready (Ok u))
                       (fun _ => [sample_substream]) tt) /\
  (exists k, 1 <= k /\ stage_order = firstn k stage_order).
Proof.
  split; [left; reflexivity|].
  apply (proj1 (upgrade_stage_order (fun u : unit => Ready (Ok u)) (fun u : unit => Ready (Ok u))
                  (fun _ => [sample_substream]) tt) stage_order (Ready (Ok (framed_new sample_substream)))).
  left; reflexivity.
Defined.

(** C8 (unsupported address): listening on an address the TCP transport
    does not support returns the transport and the original address as
    the error and binds no socket; [main] then panics in [expect] with that
    address in its message. *)
Theorem unsupported_address_rejected st a :
  multiaddr_to_socketaddr a = None ->
  listen_on echo_transport st a = (Err (echo_transport, a), st)
  /\ main_listen st (Some a) = Panic "unsupported multiaddr" (Some a) st.
Proof.
  intros H. unfold main_listen, listen_on. rewrite H. split; reflexivity.
Qed.

Lemma unsupported_address_rejected_witness :
  multiaddr_to_socketaddr [Ip4 127 0 0 1; Udp 1234] = None /\
  listen_on echo_transport (mkNet [] 3000) [Ip4 127 0 0 1; Udp 1234]
    = (Err (echo_transport, [Ip4 127 0 0 1; Udp 1234]), mkNet [] 3000).
Proof.
  split; [reflexivity|].
  apply (proj1 (unsupported_address_rejected (mkNet [] 3000) [Ip4 127 0 0 1; Udp 1234] eq_refl)).
Defined.

(** C9 (listening address): with no argument after the program name the
    address is "/ip4/0.0.0.0/tcp/10333"; otherwise it is exactly the first
    argument. *)
Theorem listen_addr_choice args :
  listen_addr args =
  match args with
  | _ :: a :: _ => a
  | _ => "/ip4/0.0.0.0/tcp/10333"%string
  end.
Proof. destruct args as [|p [|a rest]]; reflexivity. Qed.

(** C10 (single application protocol): the echo protocol offers exactly
    one name, "/echo/1.0.0"; negotiation on a substream succeeds exactly
    when the remote proposes that string, and then the substream is handed
    to the closure, which wraps it in a length-delimited [Framed]. *)
Theorem echo_protocol_only s :
  protocol_names echo_protocol = ["/echo/1.0.0"%string]
  /\ protocol_upgrade echo_protocol s =
     if existsb (String.eqb "/echo/1.0.0") (sub_proposals s)
     then Ready (Ok (framed_new s))
     else Ready (Err negotiation_failed).
Proof.
  split; [reflexivity|].
  unfold protocol_upgrade, negotiate_protocol.
  change (protocol_names echo_protocol) with ["/echo/1.0.0"%string].
  rewrite listener_select_single.
  destruct (existsb _ (sub_proposals s)); reflexivity.
Qed.

(* ================================================================== *)
(** ** Further properties of the echo loop, the supervisor and [main] *)

Lemma reads_app t1 t2 : reads (t1 ++ t2) = reads t1 ++ reads t2.
Proof.
  induction t1 as [|[] t1 IH]; simpl; try rewrite IH; reflexivity.
Qed.

Lemma skipn_nth_error {A : Type} : forall n (w : list A) x,
  nth_error w n = Some x -> skipn n w = x :: skipn (Datatypes.S n) w.
Proof.
  induction n as [|n IH]; intros [|y w] x H; simpl in *; try discriminate.
  - inversion H; reflexivity.
  - apply IH, H.
Qed.

(** The echo loop reads the items of the substream in order, each once:
    the items it has read are always a prefix of what the remote sent. *)
Theorem echo_reads_prefix c s :
  exists k, reads (snd (echo_session c s)) = firstn k (incoming s).
Proof.
  destruct s as [i w]. simpl. revert w.
  induction i as [|[m| |e] i IH]; intros w.
  - exists 0. reflexivity.
  - rewrite echo_session_frame.
    destruct (send (mkFramed i w) m) as [[i' w']|e] eqn:Hs.
    + apply send_incoming in Hs; simpl in Hs; subst i'.
      destruct (IH w') as [k Hk].
      exists (Datatypes.S k).
      destruct (echo_session c (mkFramed i w')) as [r tr]; simpl in Hk |- *.
      rewrite Hk. reflexivity.
    + exists 1. reflexivity.
  - exists 1. rewrite echo_session_eos. reflexivity.
  - exists 1. rewrite echo_session_fault. reflexivity.
Qed.

(** The echo loop only writes back frames it has received: the frames it
    has written are a prefix of the frames the remote sent before its end
    of stream or its first error, in the same order. *)
Theorem echo_writes_received_frames c s :
  exists k, sent_frames (snd (echo_session c s)) = firstn k (frame_payloads (incoming s)).
Proof.
  destruct s as [i w]. simpl. revert w.
  induction i as [|[m| |e] i IH]; intros w.
  - exists 0. reflexivity.
  - rewrite echo_session_frame.
    destruct (send (mkFramed i w) m) as [[i' w']|e] eqn:Hs.
    + apply send_incoming in Hs; simpl in Hs; subst i'.
      destruct (IH w') as [k Hk].
      exists (Datatypes.S k).
      destruct (echo_session c (mkFramed i w')) as [r tr]; simpl in Hk |- *.
      rewrite Hk. reflexivity.
    + exists 0. reflexivity.
  - exists 0. rewrite echo_session_eos. reflexivity.
  - exists 0. rewrite echo_session_fault. reflexivity.
Qed.

(** A read error ends the session with that error once every earlier
    frame has been echoed; nothing the remote sent after it is read. *)
Theorem echo_read_fault_after_frames c bs e rest w :
  Forall (fun o => o = None) (firstn (List.length bs) w) ->
  echo_session c (mkFramed (map Frame bs ++ ReadFault e :: rest) w) =
  (Ready (Err e), echo_trace c bs ++ [EvRead (ReadFault e)]).
Proof.
  intros Hw. rewrite (echo_session_frames c bs _ w Hw).
  rewrite echo_session_fault. reflexivity.
Qed.

Lemma echo_read_fault_after_frames_witness :
  Forall (fun o => o = None) (firstn 1 ([] : list (option io_error))) /\
  echo_session "peer" (mkFramed (map Frame [[Byte.x61]] ++ ReadFault InvalidData :: [Frame []]) [])
  = (Ready (Err InvalidData), echo_trace "peer" [[Byte.x61]] ++ [EvRead (ReadFault InvalidData)]).
Proof.
  split; [constructor|].
  apply echo_read_fault_after_frames. constructor.
Defined.

(** A failed write ends the session with that error: the frame whose
    write failed is the last item read, and nothing after it is read. *)
Theorem echo_write_fault_stops c bs m e rest w :
  Forall (fun o => o = None) (firstn (List.length bs) w) ->
  nth_error w (List.length bs) = Some (Some e) ->
  echo_session c (mkFramed (map Frame bs ++ Frame m :: rest) w) =
  (Ready (Err e),
   echo_trace c bs ++ [EvRead (Frame m); EvLog (LogReceived c m); EvWriteFault m e]).
Proof.
  intros Hw Hn. rewrite (echo_session_frames c bs _ w Hw).
  rewrite echo_session_frame. unfold send. simpl.
  rewrite (skipn_nth_error _ _ _ Hn). reflexivity.
Qed.

Lemma echo_write_fault_stops_witness :
  Forall (fun o => o = None) (firstn 1 [@None io_error; Some BrokenPipe]) /\
  nth_error [@None io_error; Some BrokenPipe] 1 = Some (Some BrokenPipe) /\
  echo_session "peer" (mkFramed (map Frame [[Byte.x61]] ++ Frame [] :: [EndOfStream])
                                [None; Some BrokenPipe])
  = (Ready (Err BrokenPipe),
     echo_trace "peer" [[Byte.x61]] ++
       [EvRead (Frame []); EvLog (LogReceived "peer" []); EvWriteFault [] BrokenPipe]).
Proof.
  split; [repeat constructor|split; [reflexivity|]].
  apply echo_write_fault_stops; [repeat constructor|reflexivity].
Defined.

(** Clients are served one after the other in the order the listener
    yields them, each in full: when every client of [xs] has finished, the
    trace is the concatenation of their traces, followed by the rest. *)
Theorem serve_clients_in_order xs rest :
  Forall (fun x => fst (handle_client (fst x) (snd x)) = Ready (Ok tt)) xs ->
  serve (map Item xs ++ rest) =
  (fst (serve rest),
   flat_map (fun x => snd (handle_client (fst x) (snd x))) xs ++ snd (serve rest)).
Proof.
  induction 1 as [|[up a] xs Hx Hxs IH]; simpl.
  - destruct (serve rest); reflexivity.
  - unfold serve in *. simpl. simpl in Hx.
    destruct (handle_client up a) as [r tr]. simpl in Hx. subst r.
    rewrite IH. rewrite app_assoc. reflexivity.
Qed.

Lemma serve_clients_in_order_witness :
  Forall (fun x => fst (handle_client (fst x) (snd x)) = Ready (Ok tt))
    [(Ready (Err ConnectionReset), "a"%string); (Ready (Ok (mkFramed [EndOfStream] [])), "b"%string)] /\
  serve (map Item [(Ready (Err ConnectionReset), "a"%string);
                   (Ready (Ok (mkFramed [EndOfStream] [])), "b"%string)] ++ [StreamEnd])
  = (fst (serve [StreamEnd]),
     flat_map (fun x => snd (handle_client (fst x) (snd x)))
       [(Ready (Err ConnectionReset), "a"%string); (Ready (Ok (mkFramed [EndOfStream] [])), "b"%string)]
     ++ snd (serve [StreamEnd])).
Proof.
  split; [repeat constructor|].
  apply serve_clients_in_order. repeat constructor.
Defined.

(** The loop over the listener resolves to [Ok(())] only when the
    listener stream has ended, every earlier item being a client. *)
Theorem serve_ok_only_at_end l :
  fst (serve l) = Ready (Ok tt) ->
  exists pre post, l = map Item pre ++ StreamEnd :: post.
Proof.
  unfold serve. induction l as [|[[up a]|e|] l IH]; simpl; intros H.
  - discriminate H.
  - destruct (handle_client up a) as [r tr] eqn:Hc.
    pose proof (handle_client_resolves_ok up a) as Hok. rewrite Hc in Hok; simpl in Hok.
    destruct Hok as [->| ->]; [|discriminate H].
    destruct (for_each _ l) as [r' tr'] eqn:Hl. simpl in H; subst r'.
    destruct IH as (pre & post & ->); [reflexivity|].
    exists ((up, a) :: pre), post; reflexivity.
  - discriminate H.
  - exists [], l; reflexivity.
Qed.

Lemma serve_ok_only_at_end_witness :
  fst (serve [Item (Ready (Err BrokenPipe), "a"%string); StreamEnd]) = Ready (Ok tt) /\
  exists pre post, ([Item (Ready (Err BrokenPipe), "a"%string); StreamEnd] : listener)
                   = map Item pre ++ StreamEnd :: post.
Proof.
  split; [reflexivity|].
  apply serve_ok_only_at_end. reflexivity.
Defined.

(** [main] panics in [core.run(future).unwrap()] only when the listening
    stream yields an error: an error of the listener itself, or the failed
    bind of [listen_on]; no client's failure makes it panic there.  Its
    other panics are the [unwrap]s and [expect]s of startup. *)
Theorem main_run_panics_only_on_listener_error core_ok key_ok parse show args st l st' :
  fst (main core_ok key_ok parse show args st l) = MainPanic AtRun st' ->
  (exists e pre post, l = map Item pre ++ StreamErr e :: post)
  \/ (exists a e addr st1, parse (listen_addr args) = Some a /\
        listen_on echo_transport st a = (Ok (BindFailed e, addr), st1)).
Proof.
  unfold main.
  destruct core_ok, key_ok; simpl; try discriminate.
  destruct (parse (listen_addr args)) as [a|] eqn:Hp; [|discriminate].
  destruct (listen_on echo_transport st a) as [[[b addr]|[t a']] st1] eqn:Hl;
    [|discriminate].
  destruct b as [sa|e].
  - destruct (serve l) as [r tr] eqn:Hs.
    destruct r as [[u|e]|]; simpl; intros H; try discriminate H.
    left. exists e. apply serve_err. rewrite Hs. reflexivity.
  - intros _. right. exists a, e, addr, st1. split; [reflexivity|exact Hl].
Qed.

Lemma main_run_panics_only_on_listener_error_witness :
  fst (main true true (fun _ => Some [Ip4 0 0 0 0; Tcp 4001]) (fun _ => "addr"%string) []
            (mkNet [] 3000)
            [Item (Ready (Err ConnectionReset), "a"%string); StreamErr InvalidData])
  = MainPanic AtRun (mkNet [(V4 0 0 0 0, 4001)] 3001) /\
  ((exists e pre post,
      ([Item (Ready (Err ConnectionReset), "a"%string); StreamErr InvalidData] : listener)
      = map Item pre ++ StreamErr e :: post)
   \/ (exists a e addr st1,
         (fun _ : string => Some [Ip4 0 0 0 0; Tcp 4001]) (listen_addr []) = Some a /\
         listen_on echo_transport (mkNet [] 3000) a = (Ok (BindFailed e, addr), st1))).
Proof.
  split; [reflexivity|].
  apply (main_run_panics_only_on_listener_error true true
           (fun _ => Some [Ip4 0 0 0 0; Tcp 4001]) (fun _ => "addr"%string) [] (mkNet [] 3000)
           _ (mkNet [(V4 0 0 0 0, 4001)] 3001)).
  reflexivity.
Defined.
